(** * spinn_blink: software PWM of a SpiNNaker board LED

    Shallow embedding of [spinnaker_app/spinn_blink.c].  The application
    registers [on_timer_tick] on the timer event; every tick advances a
    global 8-bit sawtooth [counter] and compares it with the first word of
    SDRAM, which a host writes at any time, to switch the LED on or off. *)

From Stdlib Require Import ZArith List Bool Lia Permutation.
Import ListNotations.
Local Open Scope Z_scope.

(** ** Machine words

    A C [uint] is a 32-bit unsigned integer.  It is represented by its value
    in [Z]; the wrap-around of [+=] is written out. *)

Definition uint_modulus : Z := 2 ^ 32.

Definition uint_add (a b : Z) : Z := (a + b) mod uint_modulus.

(** ** The comparison macros

    [#define MIN(a,b) (((a)<(b)) ? (a) : (b))] and
    [#define MAX(a,b) (((a)<(b)) ? (b) : (a))], on arguments whose evaluation
    has no effect, so that evaluating the chosen one again yields the value
    that was compared. *)

Definition MIN (a b : Z) : Z := if a <? b then a else b.


(** ** The LED interface of the runtime *)

(** Modelled from the spec: the macros [LED_ON] and [LED_OFF] come from
    [spinnaker.h], which is not part of the source tree.  The spec describes
    the Output Driver as a binary set operation, ON or OFF, on one fixed
    channel; the argument handed to [spin1_led_control] is therefore kept
    symbolic, as the macro applied to the LED number. *)
Inductive led_op : Type :=
| LED_ON (n : Z)
| LED_OFF (n : Z).

(** [#define BLINK_LED 0] *)
Definition BLINK_LED : Z := 0.

(** Calls into the runtime that are observable from outside the core. *)
Inductive event : Type :=
| LedControl (op : led_op).

(** ** Machine state

    [counter] is the global [uint counter]; [sdram] is the content of the
    shared memory, one word per address.  The program owns the first, the
    host owns the second. *)

Record machine : Type := mkMachine {
  counter : Z;
  sdram : Z -> Z
}.

(** [uint counter = 0;] with whatever the host left in memory. *)
Definition boot (mem : Z -> Z) : machine :=
  {| counter := 0; sdram := mem |}.

(** ** A state and output monad for the handler *)

Definition M (A : Type) : Type := machine -> A * machine * list event.

Definition ret {A : Type} (a : A) : M A := fun m => (a, m, []).

Definition bind {A B : Type} (c : M A) (k : A -> M B) : M B :=
  fun m =>
    let '(a, m1, out1) := c m in
    let '(b, m2, out2) := k a m1 in
    (b, m2, out1 ++ out2).

Notation "x <- c ;; k" := (bind c (fun x => k))
  (at level 61, c at next level, right associativity).
Notation "c ;; k" := (bind c (fun _ => k))
  (at level 61, right associativity).

Definition state_after {A : Type} (r : A * machine * list event) : machine :=
  snd (fst r).

Definition emitted {A : Type} (r : A * machine * list event) : list event :=
  snd r.

Definition get_counter : M Z := fun m => (counter m, m, []).

Definition set_counter (v : Z) : M unit :=
  fun m => (tt, {| counter := v; sdram := sdram m |}, []).

(** Dereference of a [const volatile uint *]: every evaluation reads memory. *)
Definition load (p : Z) : M Z := fun m => (sdram m p, m, []).

Definition spin1_led_control (op : led_op) : M unit :=
  fun m => (tt, m, [LedControl op]).

(** The host side: a store of one word into the shared memory.  It is not
    an operation of the program; it stands for the external writer. *)
Definition poke (p v : Z) (mem : Z -> Z) : Z -> Z :=
  fun a => if a =? p then v else mem a.

Definition sdram_write (p v : Z) : M unit :=
  fun m => (tt, {| counter := counter m; sdram := poke p v (sdram m) |}, []).

(** Memory nobody has written yet reads as 0. *)
Definition blank_sdram : Z -> Z := fun _ => 0.

Section Blink.

(** The address [SDRAM_BASE_UNBUF] is defined in [spinnaker.h], which is not
    part of the source tree; it is a parameter of the development. *)
Variable SDRAM_BASE_UNBUF : Z.

(** [const volatile uint *led_value = SDRAM_BASE_UNBUF;] *)
Definition led_value : Z := SDRAM_BASE_UNBUF.

(** [on_timer_tick], statement by statement. *)
Definition on_timer_tick (_1 _2 : Z) : M unit :=
  c <- get_counter ;;
  set_counter (uint_add c 1) ;;
  c <- get_counter ;;
  set_counter (Z.land c 0xFF) ;;
  c <- get_counter ;;
  d <- load led_value ;;
  if c <=? d
  then spin1_led_control (LED_ON BLINK_LED)
  else spin1_led_control (LED_OFF BLINK_LED).

(** ** Schedules

    What happens to the machine over time: timer interrupts, each with the
    two arguments the runtime passes, interleaved with stores of the host. *)

Inductive step : Type :=
| Tick (_1 _2 : Z)
| HostWrite (p v : Z).

Definition exec_step (s : step) : M unit :=
  match s with
  | Tick a b => on_timer_tick a b
  | HostWrite p v => sdram_write p v
  end.

Fixpoint run (ss : list step) : M unit :=
  match ss with
  | [] => ret tt
  | s :: rest => exec_step s ;; run rest
  end.

Definition is_tick (s : step) : bool :=
  match s with
  | Tick _ _ => true
  | HostWrite _ _ => false
  end.

Definition all_ticks (ss : list step) : bool := forallb is_tick ss.

Definition tick_count (ss : list step) : nat := length (filter is_tick ss).

(** The duty values the handler reads, one per tick of the schedule. *)
Fixpoint duties_read (ss : list step) (m : machine) : list Z :=
  match ss with
  | [] => []
  | s :: rest =>
      (if is_tick s then [sdram m led_value] else [])
        ++ duties_read rest (state_after (exec_step s m))
  end.

(** The value of [counter] that each tick of the schedule compares, that is
    the value after the increment and the mask. *)
Fixpoint counters_seen (ss : list step) (m : machine) : list Z :=
  match ss with
  | [] => []
  | s :: rest =>
      (if is_tick s then [counter (state_after (exec_step s m))] else [])
        ++ counters_seen rest (state_after (exec_step s m))
  end.


(** Machines the program can be in: booted, then driven by some schedule. *)
Inductive reachable : machine -> Prop :=
| reach_boot (mem : Z -> Z) : reachable (boot mem)
| reach_step (s : step) (m : machine) :
    reachable m -> reachable (state_after (exec_step s m)).

(** ** Observing the LED *)

Definition is_led_on (e : event) : bool :=
  match e with
  | LedControl (LED_ON n) => n =? BLINK_LED
  | LedControl (LED_OFF _) => false
  end.

Definition is_led_off (e : event) : bool :=
  match e with
  | LedControl (LED_OFF n) => n =? BLINK_LED
  | LedControl (LED_ON _) => false
  end.

Definition on_ticks (out : list event) : Z :=
  Z.of_nat (length (filter is_led_on out)).

Definition off_ticks (out : list event) : Z :=
  Z.of_nat (length (filter is_led_off out)).

(** ** Closed forms used by the proofs *)

Definition next_counter (c : Z) : Z := Z.land (uint_add c 1) 0xFF.

Definition pwm_out (c d : Z) : event :=
  LedControl (if c <=? d then LED_ON BLINK_LED else LED_OFF BLINK_LED).

(** The outputs of a run as a function of the counter and the duties read. *)
Fixpoint pwm_trace (c : Z) (ds : list Z) : list event :=
  match ds with
  | [] => []
  | d :: rest => pwm_out (next_counter c) d :: pwm_trace (next_counter c) rest
  end.

Fixpoint advance (n : nat) (c : Z) : Z :=
  match n with
  | O => c
  | S k => advance k (next_counter c)
  end.

(** The counters compared by [n] ticks in a row. *)
Fixpoint sawtooth (n : nat) (c : Z) : list Z :=
  match n with
  | O => []
  | S k => next_counter c :: sawtooth k (next_counter c)
  end.

Lemma on_timer_tick_eq (a b : Z) (m : machine) :
  on_timer_tick a b m =
  (tt, {| counter := next_counter (counter m); sdram := sdram m |},
   [pwm_out (next_counter (counter m)) (sdram m led_value)]).
Proof.
  unfold on_timer_tick, bind, get_counter, set_counter, load; simpl.
  unfold pwm_out, next_counter.
  destruct (Z.land (uint_add (counter m) 1) 255 <=? sdram m led_value);
    reflexivity.
Qed.

Lemma next_counter_mod (c : Z) : next_counter c = (c + 1) mod 256.
Proof.
  unfold next_counter, uint_add, uint_modulus.
  change 0xFF with (Z.ones 8).
  rewrite Z.land_ones by lia.
  apply Z.mod_mod_divide. exists (2 ^ 24). reflexivity.
Qed.

Lemma next_counter_range (c : Z) : 0 <= next_counter c <= 255.
Proof.
  rewrite next_counter_mod.
  pose proof (Z.mod_pos_bound (c + 1) 256). lia.
Qed.

Lemma next_counter_succ (c : Z) :
  0 <= c < 255 -> next_counter c = c + 1.
Proof.
  intros Hc. rewrite next_counter_mod. apply Z.mod_small. lia.
Qed.

Lemma next_counter_wrap : next_counter 255 = 0.
Proof. reflexivity. Qed.

(** *** Runs unfolded *)

Lemma run_cons (s : step) (rest : list step) (m : machine) :
  run (s :: rest) m =
  (tt, state_after (run rest (state_after (exec_step s m))),
   emitted (exec_step s m) ++ emitted (run rest (state_after (exec_step s m)))).
Proof.
  simpl. unfold bind, state_after, emitted.
  destruct (exec_step s m) as [[u m1] out1]; simpl.
  destruct (run rest m1) as [[v m2] out2]; simpl.
  destruct v; reflexivity.
Qed.

Lemma exec_step_counter (s : step) (m : machine) :
  counter (state_after (exec_step s m)) =
  if is_tick s then next_counter (counter m) else counter m.
Proof.
  destruct s as [a b | p v]; simpl.
  - rewrite on_timer_tick_eq. reflexivity.
  - reflexivity.
Qed.

Lemma exec_step_emitted (s : step) (m : machine) :
  emitted (exec_step s m) =
  if is_tick s
  then [pwm_out (next_counter (counter m)) (sdram m led_value)]
  else [].
Proof.
  destruct s as [a b | p v]; simpl.
  - rewrite on_timer_tick_eq. reflexivity.
  - reflexivity.
Qed.

Lemma exec_tick_sdram (s : step) (m : machine) :
  is_tick s = true -> sdram (state_after (exec_step s m)) = sdram m.
Proof.
  destruct s as [a b | p v]; simpl; intros H.
  - rewrite on_timer_tick_eq. reflexivity.
  - discriminate H.
Qed.

Lemma run_counter (ss : list step) :
  forall m, counter (state_after (run ss m)) = advance (tick_count ss) (counter m).
Proof.
  induction ss as [| s rest IH]; intros m.
  - reflexivity.
  - rewrite run_cons. unfold state_after at 1. simpl fst. simpl snd.
    rewrite IH, exec_step_counter. unfold tick_count. simpl filter.
    destruct (is_tick s); reflexivity.
Qed.

Lemma run_emitted (ss : list step) :
  forall m, emitted (run ss m) = pwm_trace (counter m) (duties_read ss m).
Proof.
  induction ss as [| s rest IH]; intros m.
  - reflexivity.
  - rewrite run_cons. unfold emitted at 1. simpl snd.
    rewrite IH, exec_step_emitted, exec_step_counter. simpl duties_read.
    destruct (is_tick s); reflexivity.
Qed.

Lemma run_ticks_sdram (ss : list step) :
  forall m, all_ticks ss = true -> sdram (state_after (run ss m)) = sdram m.
Proof.
  induction ss as [| s rest IH]; intros m H.
  - reflexivity.
  - unfold all_ticks in H. simpl in H. apply andb_true_iff in H.
    destruct H as [Hs Hrest].
    rewrite run_cons. unfold state_after at 1. simpl fst. simpl snd.
    rewrite IH by exact Hrest. apply exec_tick_sdram. exact Hs.
Qed.

Lemma duties_read_ticks (ss : list step) :
  forall m, all_ticks ss = true ->
  duties_read ss m = repeat (sdram m led_value) (length ss).
Proof.
  induction ss as [| s rest IH]; intros m H.
  - reflexivity.
  - unfold all_ticks in H. simpl in H. apply andb_true_iff in H.
    destruct H as [Hs Hrest].
    simpl. rewrite Hs, IH by exact Hrest.
    rewrite exec_tick_sdram by exact Hs. reflexivity.
Qed.

Lemma duties_read_length (ss : list step) :
  forall m, length (duties_read ss m) = tick_count ss.
Proof.
  induction ss as [| s rest IH]; intros m.
  - reflexivity.
  - cbn [duties_read]. rewrite length_app, IH. unfold tick_count.
    cbn [filter]. destruct (is_tick s); reflexivity.
Qed.

Lemma tick_count_all (ss : list step) :
  all_ticks ss = true -> tick_count ss = length ss.
Proof.
  induction ss as [| s rest IH]; intros H.
  - reflexivity.
  - unfold all_ticks in H. simpl in H. apply andb_true_iff in H.
    destruct H as [Hs Hrest]. unfold tick_count in *. simpl.
    rewrite Hs. simpl. f_equal. apply IH. exact Hrest.
Qed.

(** *** Counting the ON ticks of a trace *)

Lemma is_led_on_pwm_out (c d : Z) : is_led_on (pwm_out c d) = (c <=? d).
Proof. unfold pwm_out. destruct (c <=? d); reflexivity. Qed.

Lemma is_led_off_pwm_out (c d : Z) : is_led_off (pwm_out c d) = negb (c <=? d).
Proof. unfold pwm_out. destruct (c <=? d); reflexivity. Qed.

Lemma on_ticks_cons (e : event) (out : list event) :
  on_ticks (e :: out) = (if is_led_on e then 1 else 0) + on_ticks out.
Proof.
  unfold on_ticks. cbn [filter]. destruct (is_led_on e); cbn [length]; lia.
Qed.

Lemma on_ticks_app (out1 out2 : list event) :
  on_ticks (out1 ++ out2) = on_ticks out1 + on_ticks out2.
Proof.
  unfold on_ticks. rewrite filter_app, length_app. lia.
Qed.

Lemma on_off_total (ds : list Z) :
  forall c,
  on_ticks (pwm_trace c ds) + off_ticks (pwm_trace c ds) = Z.of_nat (length ds).
Proof.
  induction ds as [| d rest IH]; intros c.
  - reflexivity.
  - specialize (IH (next_counter c)). unfold on_ticks, off_ticks in *.
    cbn [pwm_trace filter].
    rewrite is_led_on_pwm_out, is_led_off_pwm_out.
    destruct (next_counter c <=? d); cbn [negb length]; lia.
Qed.

Lemma pwm_trace_app (ds1 ds2 : list Z) :
  forall c,
  pwm_trace c (ds1 ++ ds2) =
  pwm_trace c ds1 ++ pwm_trace (advance (length ds1) c) ds2.
Proof.
  induction ds1 as [| d rest IH]; intros c.
  - reflexivity.
  - simpl. rewrite IH. reflexivity.
Qed.

Lemma pwm_trace_mod (ds : list Z) (c : Z) :
  pwm_trace (c mod 256) ds = pwm_trace c ds.
Proof.
  assert (H : next_counter (c mod 256) = next_counter c).
  { rewrite !next_counter_mod. apply Zplus_mod_idemp_l. }
  destruct ds as [| d rest]; simpl.
  - reflexivity.
  - rewrite H. reflexivity.
Qed.

Lemma advance_ramp (n : nat) :
  forall c, 0 <= c -> c + Z.of_nat n <= 255 -> advance n c = c + Z.of_nat n.
Proof.
  induction n as [| k IH]; intros c H0 H1.
  - simpl. lia.
  - simpl advance. rewrite next_counter_succ by lia.
    rewrite IH by lia. lia.
Qed.

Lemma advance_mod (n : nat) :
  forall c, 0 <= c <= 255 -> advance n c = (c + Z.of_nat n) mod 256.
Proof.
  induction n as [| k IH]; intros c Hc.
  - simpl. rewrite Z.add_0_r. symmetry. apply Z.mod_small. lia.
  - simpl advance. rewrite IH by apply next_counter_range.
    rewrite next_counter_mod, Zplus_mod_idemp_l. f_equal. lia.
Qed.

(** While the counter climbs without wrapping, the ON ticks are those whose
    counter has not passed the duty value yet. *)
Lemma on_ticks_ramp (d : Z) (n : nat) :
  forall c, 0 <= c -> c + Z.of_nat n <= 255 ->
  on_ticks (pwm_trace c (repeat d n)) = Z.max 0 (Z.min (c + Z.of_nat n) d - c).
Proof.
  induction n as [| k IH]; intros c H0 H1.
  - unfold on_ticks. simpl. lia.
  - simpl repeat. simpl pwm_trace. rewrite on_ticks_cons, is_led_on_pwm_out.
    rewrite next_counter_succ by lia. rewrite IH by lia.
    destruct (Z.leb_spec (c + 1) d); lia.
Qed.

(** One period from any counter in range: a climb to 255, the wrap to 0, and
    a climb back to the start. *)
Lemma on_ticks_period (c d : Z) :
  0 <= c <= 255 -> 0 <= d <= 255 ->
  on_ticks (pwm_trace c (repeat d 256)) = d + 1.
Proof.
  intros Hc Hd.
  replace 256%nat with (Z.to_nat (255 - c) + (1 + Z.to_nat c))%nat by lia.
  rewrite !repeat_app, !pwm_trace_app, !on_ticks_app, !repeat_length.
  rewrite (advance_ramp (Z.to_nat (255 - c)) c) by lia.
  replace (c + Z.of_nat (Z.to_nat (255 - c))) with 255 by lia.
  change (advance 1 255) with 0.
  change (pwm_trace 255 (repeat d 1)) with [pwm_out 0 d].
  rewrite (on_ticks_ramp d (Z.to_nat (255 - c)) c) by lia.
  rewrite (on_ticks_ramp d (Z.to_nat c) 0) by lia.
  rewrite on_ticks_cons, is_led_on_pwm_out.
  destruct (Z.leb_spec 0 d); [| lia].
  change (on_ticks []) with 0. lia.
Qed.

Lemma on_ticks_period_any (c d : Z) :
  0 <= d <= 255 -> on_ticks (pwm_trace c (repeat d 256)) = d + 1.
Proof.
  intros Hd. rewrite <- pwm_trace_mod. apply on_ticks_period.
  - pose proof (Z.mod_pos_bound c 256). lia.
  - exact Hd.
Qed.

Lemma pwm_trace_saturated (d : Z) (n : nat) :
  255 <= d ->
  forall c, pwm_trace c (repeat d n) = repeat (LedControl (LED_ON BLINK_LED)) n.
Proof.
  intros Hd. induction n as [| k IH]; intros c.
  - reflexivity.
  - simpl. rewrite IH. unfold pwm_out.
    pose proof (next_counter_range c).
    destruct (Z.leb_spec (next_counter c) d); [reflexivity | lia].
Qed.

Lemma reachable_counter_range (m : machine) :
  reachable m -> 0 <= counter m <= 255.
Proof.
  induction 1 as [mem | s m Hm IH].
  - simpl. lia.
  - rewrite exec_step_counter. destruct (is_tick s).
    + apply next_counter_range.
    + exact IH.
Qed.

Lemma pwm_out_duty_zero (c : Z) :
  0 <= c ->
  pwm_out c 0 =
  LedControl (if c =? 0 then LED_ON BLINK_LED else LED_OFF BLINK_LED).
Proof.
  intros Hc. unfold pwm_out.
  destruct (Z.leb_spec c 0), (Z.eqb_spec c 0); try reflexivity; lia.
Qed.

Lemma run_emitted_duty_zero (ss : list step) :
  forall m, all_ticks ss = true -> sdram m led_value = 0 ->
  emitted (run ss m) =
  map (fun c => LedControl (if c =? 0 then LED_ON BLINK_LED
                            else LED_OFF BLINK_LED))
      (counters_seen ss m).
Proof.
  induction ss as [| s rest IH]; intros m H Hd.
  - reflexivity.
  - unfold all_ticks in H. simpl in H. apply andb_true_iff in H.
    destruct H as [Hs Hrest].
    rewrite run_cons. unfold emitted at 1. cbn [snd counters_seen].
    rewrite map_app, <- IH.
    + rewrite exec_step_emitted, exec_step_counter, Hs, Hd. cbn [map].
      rewrite pwm_out_duty_zero by apply next_counter_range. reflexivity.
    + exact Hrest.
    + rewrite exec_tick_sdram by exact Hs. exact Hd.
Qed.

(** ** The properties of the tick handler *)

(** C1: at every tick the LED is switched ON exactly when the counter, after
    its increment and mask, is at most the duty value read at that tick, and
    OFF exactly when it is greater; this for every counter and duty value. *)
Theorem tick_output_is_comparison (a b : Z) (m : machine) :
  let r := on_timer_tick a b m in
  counter (state_after r) = Z.land (uint_add (counter m) 1) 0xFF /\
  emitted r =
    [LedControl (if counter (state_after r) <=? sdram m led_value
                 then LED_ON BLINK_LED else LED_OFF BLINK_LED)] /\
  (emitted r = [LedControl (LED_ON BLINK_LED)] <->
     counter (state_after r) <= sdram m led_value) /\
  (emitted r = [LedControl (LED_OFF BLINK_LED)] <->
     sdram m led_value < counter (state_after r)).
Proof.
  cbv zeta. rewrite on_timer_tick_eq.
  unfold state_after, emitted, pwm_out. cbn [fst snd counter].
  fold (next_counter (counter m)).
  destruct (Z.leb_spec (next_counter (counter m)) (sdram m led_value));
    repeat split; intros; try reflexivity; try lia; try discriminate.
Qed.

(** C2: with the duty value fixed at d, 0 <= d <= 255, any 256 consecutive
    ticks that start from counter 0 switch the LED ON on exactly d + 1 of
    them and OFF on exactly 255 - d of them. *)
Theorem period_on_off_counts (m : machine) (ss : list step) (d : Z) :
  0 <= d <= 255 ->
  counter m = 0 ->
  sdram m led_value = d ->
  all_ticks ss = true ->
  length ss = 256%nat ->
  on_ticks (emitted (run ss m)) = d + 1 /\
  off_ticks (emitted (run ss m)) = 255 - d.
Proof.
  intros Hd Hc Hm Hticks Hlen.
  pose proof (on_off_total (duties_read ss m) (counter m)) as Htot.
  rewrite run_emitted.
  rewrite duties_read_ticks in * by exact Hticks.
  rewrite repeat_length in Htot.
  rewrite Hlen, Hm, Hc in *.
  rewrite on_ticks_period in * by lia.
  lia.
Qed.

(** C3: the counter starts at 0; every tick sets it to (previous + 1) mod 256
    and compares that new value; so after any schedule from startup the
    counter lies in [0, 255]. *)
Theorem counter_sawtooth :
  (forall mem, counter (boot mem) = 0) /\
  (forall a b m,
     counter (state_after (on_timer_tick a b m)) = (counter m + 1) mod 256 /\
     emitted (on_timer_tick a b m) =
       [LedControl (if (counter m + 1) mod 256 <=? sdram m led_value
                    then LED_ON BLINK_LED else LED_OFF BLINK_LED)]) /\
  (forall ss mem, 0 <= counter (state_after (run ss (boot mem))) <= 255).
Proof.
  split; [| split].
  - reflexivity.
  - intros a b m. rewrite on_timer_tick_eq, next_counter_mod. split; reflexivity.
  - intros ss mem. rewrite run_counter. cbn [boot counter].
    rewrite advance_mod by lia.
    pose proof (Z.mod_pos_bound (0 + Z.of_nat (tick_count ss)) 256). lia.
Qed.

(** C4: when the duty value is 256 or more, every tick switches the LED ON,
    whatever the counter is, and the run is the one of duty value 255. *)
Theorem duty_above_range_always_on (m : machine) (ss : list step) :
  256 <= sdram m led_value ->
  all_ticks ss = true ->
  let m255 := state_after (sdram_write led_value 255 m) in
  emitted (run ss m) = repeat (LedControl (LED_ON BLINK_LED)) (length ss) /\
  emitted (run ss m) = emitted (run ss m255) /\
  counter (state_after (run ss m)) = counter (state_after (run ss m255)).
Proof.
  intros Hd Hticks m255.
  assert (H255 : sdram m255 led_value = 255).
  { unfold m255, state_after, sdram_write, poke. cbn [fst snd sdram].
    rewrite Z.eqb_refl. reflexivity. }
  rewrite !run_emitted, !run_counter, !duties_read_ticks by exact Hticks.
  rewrite H255, !pwm_trace_saturated by lia.
  repeat split.
Qed.

(** C5: with duty value 0 the LED is switched ON exactly on the ticks whose
    counter, after the increment, is 0, and OFF on all others; in any 256
    consecutive ticks that is one ON tick and 255 OFF ticks. *)
Theorem duty_zero_single_on_tick (m : machine) (ss period : list step) :
  sdram m led_value = 0 ->
  all_ticks ss = true ->
  all_ticks period = true ->
  length period = 256%nat ->
  emitted (run ss m) =
    map (fun c => LedControl (if c =? 0 then LED_ON BLINK_LED
                              else LED_OFF BLINK_LED))
        (counters_seen ss m) /\
  on_ticks (emitted (run period m)) = 1 /\
  off_ticks (emitted (run period m)) = 255.
Proof.
  intros Hd Hss Hp Hlen. split.
  - apply run_emitted_duty_zero; assumption.
  - pose proof (on_off_total (duties_read period m) (counter m)) as Htot.
    rewrite run_emitted.
    rewrite duties_read_ticks in * by exact Hp.
    rewrite repeat_length in Htot.
    rewrite Hlen, Hd in *.
    rewrite on_ticks_period_any in * by lia.
    lia.
Qed.

(** C6: from every reachable machine, a schedule with exactly 256 ticks
    brings the counter back to the value it had. *)
Theorem counter_period_256 (m : machine) (ss : list step) :
  reachable m ->
  tick_count ss = 256%nat ->
  counter (state_after (run ss m)) = counter m.
Proof.
  intros Hm Hn. apply reachable_counter_range in Hm.
  rewrite run_counter, Hn, advance_mod by exact Hm.
  change (Z.of_nat 256) with (1 * 256).
  rewrite Z.mod_add by lia. apply Z.mod_small. lia.
Qed.

(** C7: the duty value a tick uses is the one stored when that tick runs: a
    host write of v between two ticks decides the second tick, whatever the
    word held at the first. *)
Theorem duty_read_is_fresh (m : machine) (a b a' b' v : Z) :
  let m1 := state_after (on_timer_tick a b m) in
  let m2 := state_after (sdram_write led_value v m1) in
  let r := on_timer_tick a' b' m2 in
  duties_read [Tick a b; HostWrite led_value v; Tick a' b'] m =
    [sdram m led_value; v] /\
  emitted r =
    [LedControl (if counter (state_after r) <=? v
                 then LED_ON BLINK_LED else LED_OFF BLINK_LED)].
Proof.
  cbv zeta. split.
  - cbn [duties_read is_tick app exec_step].
    rewrite on_timer_tick_eq.
    unfold state_after, sdram_write, poke. cbn [fst snd sdram].
    rewrite Z.eqb_refl. reflexivity.
  - rewrite !on_timer_tick_eq.
    unfold state_after, emitted, sdram_write, poke, pwm_out.
    cbn [fst snd sdram counter].
    rewrite Z.eqb_refl. reflexivity.
Qed.

(** C8: a tick makes exactly one call of the LED driver, ON or OFF, and
    changes nothing but the counter: the shared memory is left as it was. *)
Theorem tick_frame (a b : Z) (m : machine) :
  let r := on_timer_tick a b m in
  (emitted r = [LedControl (LED_ON BLINK_LED)] \/
   emitted r = [LedControl (LED_OFF BLINK_LED)]) /\
  length (emitted r) = 1%nat /\
  sdram (state_after r) = sdram m /\
  state_after r = {| counter := counter (state_after r); sdram := sdram m |}.
Proof.
  cbv zeta. rewrite on_timer_tick_eq.
  unfold state_after, emitted, pwm_out. cbn [fst snd sdram counter].
  repeat split.
  destruct (next_counter (counter m) <=? sdram m led_value); [left | right];
    reflexivity.
Qed.

(** C9: the outputs of a run and its final counter are a function of the
    initial counter and of the duty values read at the ticks: two runs that
    agree on those produce the same outputs and the same final counter. *)
Theorem run_deterministic (m1 m2 : machine) (ss1 ss2 : list step) :
  counter m1 = counter m2 ->
  duties_read ss1 m1 = duties_read ss2 m2 ->
  emitted (run ss1 m1) = emitted (run ss2 m2) /\
  counter (state_after (run ss1 m1)) = counter (state_after (run ss2 m2)).
Proof.
  intros Hc Hd. rewrite !run_emitted, !run_counter, Hc, Hd. split.
  - reflexivity.
  - rewrite <- (duties_read_length ss1 m1), <- (duties_read_length ss2 m2), Hd.
    reflexivity.
Qed.

(** C10: the two arguments the runtime passes to the handler play no part:
    any two pairs of arguments give the same counter and the same output. *)
Theorem tick_ignores_arguments (a1 a2 b1 b2 : Z) (m : machine) :
  on_timer_tick a1 a2 m = on_timer_tick b1 b2 m.
Proof. reflexivity. Qed.

(** ** Further properties of the handler *)

Lemma advance_mod_pos (n : nat) (c : Z) :
  (0 < n)%nat -> advance n c = (c + Z.of_nat n) mod 256.
Proof.
  destruct n as [| k]; intros Hn; [lia |].
  simpl advance. rewrite advance_mod by apply next_counter_range.
  rewrite next_counter_mod, Zplus_mod_idemp_l. f_equal. lia.
Qed.

Lemma all_ticks_app (ss1 ss2 : list step) :
  all_ticks (ss1 ++ ss2) = all_ticks ss1 && all_ticks ss2.
Proof. unfold all_ticks. apply forallb_app. Qed.

Lemma on_ticks_repeat_on (n : nat) :
  on_ticks (repeat (LedControl (LED_ON BLINK_LED)) n) = Z.of_nat n.
Proof.
  induction n as [| k IH].
  - reflexivity.
  - cbn [repeat]. rewrite on_ticks_cons, IH. cbn [is_led_on].
    change (BLINK_LED =? BLINK_LED) with true. cbv iota. lia.
Qed.

(** The ON and OFF counts of one period, for any duty value a [uint] holds. *)
Lemma period_counts (c d : Z) :
  0 <= d ->
  on_ticks (pwm_trace c (repeat d 256)) = Z.min d 255 + 1 /\
  off_ticks (pwm_trace c (repeat d 256)) = 255 - Z.min d 255.
Proof.
  intros Hd.
  pose proof (on_off_total (repeat d 256) c) as Htot.
  rewrite repeat_length in Htot.
  destruct (Z_le_gt_dec d 255) as [Hle | Hgt].
  - rewrite on_ticks_period_any in * by lia. lia.
  - rewrite pwm_trace_saturated in * by lia.
    rewrite on_ticks_repeat_on in *. lia.
Qed.

Lemma pwm_trace_calls (ds : list Z) :
  forall c,
  length (pwm_trace c ds) = length ds /\
  Forall (fun e => e = LedControl (LED_ON BLINK_LED) \/
                   e = LedControl (LED_OFF BLINK_LED))
         (pwm_trace c ds).
Proof.
  induction ds as [| d rest IH]; intros c.
  - split; [reflexivity | constructor].
  - destruct (IH (next_counter c)) as [Hlen Hall]. cbn [pwm_trace length].
    split; [rewrite Hlen; reflexivity |].
    constructor; [| exact Hall].
    unfold pwm_out. destruct (next_counter c <=? d); [left | right]; reflexivity.
Qed.

(** X1: after any schedule from startup the counter is the number of ticks
    served so far, modulo 256; host writes do not move it. *)
Theorem counter_counts_ticks (ss : list step) (mem : Z -> Z) :
  counter (state_after (run ss (boot mem))) = Z.of_nat (tick_count ss) mod 256.
Proof.
  rewrite run_counter. cbn [boot counter].
  rewrite advance_mod by lia. reflexivity.
Qed.

(** X2: on a reachable machine the 32-bit addition [counter += 1] never
    wraps; the only wrap is the mask, which turns 256 into 0 and leaves every
    other incremented value alone. *)
Theorem increment_never_overflows (a b : Z) (m : machine) :
  reachable m ->
  uint_add (counter m) 1 = counter m + 1 /\
  counter (state_after (on_timer_tick a b m)) =
    (if counter m =? 255 then 0 else counter m + 1).
Proof.
  intros Hm. apply reachable_counter_range in Hm.
  assert (Hadd : uint_add (counter m) 1 = counter m + 1).
  { unfold uint_add, uint_modulus. apply Z.mod_small.
    change (2 ^ 32) with 4294967296. lia. }
  split; [exact Hadd |].
  rewrite on_timer_tick_eq. unfold state_after. cbn [fst snd counter].
  destruct (Z.eqb_spec (counter m) 255) as [E | NE].
  - rewrite E. reflexivity.
  - apply next_counter_succ. lia.
Qed.

(** X3: for any duty value d >= 0, 256 consecutive ticks from any counter
    switch the LED ON on min(d, 255) + 1 of them and OFF on the others. *)
Theorem period_transfer_function (m : machine) (ss : list step) :
  0 <= sdram m led_value ->
  all_ticks ss = true ->
  length ss = 256%nat ->
  on_ticks (emitted (run ss m)) = Z.min (sdram m led_value) 255 + 1 /\
  off_ticks (emitted (run ss m)) = 255 - Z.min (sdram m led_value) 255.
Proof.
  intros Hd Hticks Hlen.
  rewrite run_emitted, duties_read_ticks, Hlen by exact Hticks.
  apply period_counts. exact Hd.
Qed.

(** X4: no duty value switches the LED off for a whole period, and the LED
    stays ON for a whole period exactly when the duty value is 255 or more. *)
Theorem never_fully_off (m : machine) (ss : list step) :
  0 <= sdram m led_value ->
  all_ticks ss = true ->
  length ss = 256%nat ->
  1 <= on_ticks (emitted (run ss m)) /\
  (off_ticks (emitted (run ss m)) = 0 <-> 255 <= sdram m led_value).
Proof.
  intros Hd Hticks Hlen.
  rewrite run_emitted, duties_read_ticks, Hlen by exact Hticks.
  destruct (period_counts (counter m) (sdram m led_value) Hd) as [Hon Hoff].
  rewrite Hon, Hoff. lia.
Qed.

(** X5: over any schedule the LED driver is called once per tick and never
    for a host write, and every call is for LED 0, ON or OFF. *)
Theorem one_led_call_per_tick (ss : list step) (m : machine) :
  length (emitted (run ss m)) = tick_count ss /\
  Forall (fun e => e = LedControl (LED_ON 0) \/ e = LedControl (LED_OFF 0))
         (emitted (run ss m)) /\
  on_ticks (emitted (run ss m)) + off_ticks (emitted (run ss m)) =
    Z.of_nat (tick_count ss).
Proof.
  rewrite run_emitted.
  destruct (pwm_trace_calls (duties_read ss m) (counter m)) as [Hlen Hall].
  rewrite on_off_total, Hlen, duties_read_length.
  repeat split. exact Hall.
Qed.

(** *** The waveform of one period *)

Lemma pwm_trace_ramp (d : Z) (n : nat) :
  forall c, 0 <= c -> c + Z.of_nat n <= 255 ->
  pwm_trace c (repeat d n) =
  repeat (LedControl (LED_ON BLINK_LED))
         (Z.to_nat (Z.min (c + Z.of_nat n) d - c))
  ++ repeat (LedControl (LED_OFF BLINK_LED))
            (n - Z.to_nat (Z.min (c + Z.of_nat n) d - c)).
Proof.
  induction n as [| k IH]; intros c H0 H1.
  - replace (Z.to_nat (Z.min (c + Z.of_nat 0) d - c)) with O by lia.
    reflexivity.
  - cbn [repeat pwm_trace]. rewrite next_counter_succ by lia.
    rewrite IH by lia. unfold pwm_out.
    destruct (Z.leb_spec (c + 1) d) as [Hle | Hgt].
    + replace (Z.to_nat (Z.min (c + Z.of_nat (S k)) d - c))
        with (S (Z.to_nat (Z.min (c + 1 + Z.of_nat k) d - (c + 1)))) by lia.
      reflexivity.
    + replace (Z.to_nat (Z.min (c + Z.of_nat (S k)) d - c)) with O by lia.
      replace (Z.to_nat (Z.min (c + 1 + Z.of_nat k) d - (c + 1))) with O by lia.
      rewrite !Nat.sub_0_r. reflexivity.
Qed.

Lemma pwm_trace_period_shape (c d : Z) :
  0 <= c <= 255 -> 0 <= d <= 255 ->
  pwm_trace c (repeat d 256) =
  repeat (LedControl (LED_ON BLINK_LED)) (Z.to_nat (d - c))
  ++ repeat (LedControl (LED_OFF BLINK_LED)) (Z.to_nat (255 - Z.max c d))
  ++ [LedControl (LED_ON BLINK_LED)]
  ++ repeat (LedControl (LED_ON BLINK_LED)) (Z.to_nat (Z.min c d))
  ++ repeat (LedControl (LED_OFF BLINK_LED)) (Z.to_nat (c - Z.min c d)).
Proof.
  intros Hc Hd.
  replace 256%nat with (Z.to_nat (255 - c) + (1 + Z.to_nat c))%nat by lia.
  rewrite !repeat_app, !pwm_trace_app, !repeat_length.
  rewrite (advance_ramp (Z.to_nat (255 - c)) c) by lia.
  replace (c + Z.of_nat (Z.to_nat (255 - c))) with 255 by lia.
  change (advance 1 255) with 0.
  change (pwm_trace 255 (repeat d 1)) with [pwm_out 0 d].
  rewrite (pwm_trace_ramp d (Z.to_nat (255 - c)) c) by lia.
  rewrite (pwm_trace_ramp d (Z.to_nat c) 0) by lia.
  unfold pwm_out. destruct (Z.leb_spec 0 d) as [_ | Hneg]; [| lia].
  rewrite <- !app_assoc.
  f_equal; [f_equal; lia |].
  f_equal; [f_equal; lia |].
  f_equal.
  f_equal; f_equal; lia.
Qed.

(** X6: with a fixed duty value d in [0, 255], the 256 ticks that follow a
    counter value c are, in order: ON while the counter climbs from c + 1 up
    to d, OFF from there up to 255, ON at the wrap to 0, ON while it climbs
    from 1 up to min(c, d), and OFF for the rest of the way back to c. *)
Theorem period_waveform (m : machine) (ss : list step) :
  reachable m ->
  0 <= sdram m led_value <= 255 ->
  all_ticks ss = true ->
  length ss = 256%nat ->
  emitted (run ss m) =
  repeat (LedControl (LED_ON BLINK_LED))
         (Z.to_nat (sdram m led_value - counter m))
  ++ repeat (LedControl (LED_OFF BLINK_LED))
            (Z.to_nat (255 - Z.max (counter m) (sdram m led_value)))
  ++ [LedControl (LED_ON BLINK_LED)]
  ++ repeat (LedControl (LED_ON BLINK_LED))
            (Z.to_nat (Z.min (counter m) (sdram m led_value)))
  ++ repeat (LedControl (LED_OFF BLINK_LED))
            (Z.to_nat (counter m - Z.min (counter m) (sdram m led_value))).
Proof.
  intros Hm Hd Hticks Hlen. apply reachable_counter_range in Hm.
  rewrite run_emitted, duties_read_ticks, Hlen by exact Hticks.
  apply pwm_trace_period_shape; assumption.
Qed.

(** X7: with a fixed duty value the output repeats every 256 ticks: a run of
    256 ticks followed by further ticks emits the outputs of the 256 ticks and
    then what the further ticks emit when run from the start. *)
Theorem output_repeats_every_256 (m : machine) (period ss : list step) :
  all_ticks period = true ->
  length period = 256%nat ->
  all_ticks ss = true ->
  emitted (run (period ++ ss) m) = emitted (run period m) ++ emitted (run ss m).
Proof.
  intros Hp Hlen Hss.
  assert (Hall : all_ticks (period ++ ss) = true).
  { rewrite all_ticks_app, Hp, Hss. reflexivity. }
  rewrite !run_emitted, !duties_read_ticks by assumption.
  rewrite length_app, repeat_app, pwm_trace_app, repeat_length, Hlen.
  rewrite advance_mod_pos by lia.
  change (Z.of_nat 256) with (1 * 256). rewrite Z.mod_add by lia.
  rewrite pwm_trace_mod. reflexivity.
Qed.

Lemma on_ticks_whole_periods (d : Z) (k : nat) :
  0 <= d ->
  forall c,
  on_ticks (pwm_trace c (repeat d (k * 256))) = Z.of_nat k * (Z.min d 255 + 1).
Proof.
  intros Hd. induction k as [| j IH]; intros c.
  - reflexivity.
  - change (S j * 256)%nat with (256 + j * 256)%nat.
    rewrite repeat_app, pwm_trace_app, on_ticks_app, IH.
    destruct (period_counts c d Hd) as [Hon _]. rewrite Hon. lia.
Qed.

(** X8: over any whole number k of periods, from any counter, a fixed duty
    value d >= 0 gives exactly k * (min(d, 255) + 1) ON ticks. *)
Theorem whole_periods_on_count (m : machine) (ss : list step) (k : nat) :
  0 <= sdram m led_value ->
  all_ticks ss = true ->
  length ss = (k * 256)%nat ->
  on_ticks (emitted (run ss m)) =
    Z.of_nat k * (Z.min (sdram m led_value) 255 + 1).
Proof.
  intros Hd Hticks Hlen.
  rewrite run_emitted, duties_read_ticks, Hlen by exact Hticks.
  apply on_ticks_whole_periods. exact Hd.
Qed.

(** *** Duty values that change during a run *)

Lemma pwm_trace_mono (ds ds' : list Z) :
  Forall2 Z.le ds ds' ->
  forall c,
  on_ticks (pwm_trace c ds) <= on_ticks (pwm_trace c ds').
Proof.
  induction 1 as [| d d' rest rest' Hd Hrest IH]; intros c.
  - reflexivity.
  - cbn [pwm_trace]. rewrite !on_ticks_cons, !is_led_on_pwm_out.
    specialize (IH (next_counter c)).
    destruct (Z.leb_spec (next_counter c) d), (Z.leb_spec (next_counter c) d');
      lia.
Qed.

Lemma Forall2_repeat_below (lo : Z) (ds : list Z) :
  Forall (fun d => lo <= d) ds -> Forall2 Z.le (repeat lo (length ds)) ds.
Proof.
  induction 1 as [| d rest Hd Hrest IH]; cbn [length repeat]; constructor;
    assumption.
Qed.

Lemma Forall2_repeat_above (hi : Z) (ds : list Z) :
  Forall (fun d => d <= hi) ds -> Forall2 Z.le ds (repeat hi (length ds)).
Proof.
  induction 1 as [| d rest Hd Hrest IH]; cbn [length repeat]; constructor;
    assumption.
Qed.

(** X9: a brighter request never gives a dimmer LED: of two runs from the
    same counter, the one that reads, tick for tick, duty values at least as
    large has at least as many ON ticks. *)
Theorem on_ticks_monotone (m1 m2 : machine) (ss1 ss2 : list step) :
  counter m1 = counter m2 ->
  Forall2 Z.le (duties_read ss1 m1) (duties_read ss2 m2) ->
  on_ticks (emitted (run ss1 m1)) <= on_ticks (emitted (run ss2 m2)).
Proof.
  intros Hc Hd. rewrite !run_emitted, Hc. apply pwm_trace_mono. exact Hd.
Qed.

(** X10: if every duty value read during a schedule of 256 ticks lies between
    lo and hi, with 0 <= lo and hi <= 255, then the number of ON ticks lies
    between lo + 1 and hi + 1, however the host writes are interleaved. *)
Theorem changing_duty_bounds (m : machine) (ss : list step) (lo hi : Z) :
  0 <= lo ->
  hi <= 255 ->
  tick_count ss = 256%nat ->
  Forall (fun d => lo <= d <= hi) (duties_read ss m) ->
  lo + 1 <= on_ticks (emitted (run ss m)) <= hi + 1.
Proof.
  intros Hlo Hhi Hn Hall.
  assert (Hlen : length (duties_read ss m) = 256%nat).
  { rewrite duties_read_length. exact Hn. }
  assert (Hnonempty : lo <= hi).
  { destruct (duties_read ss m) as [| d rest]; [discriminate Hlen |].
    inversion Hall; subst. lia. }
  rewrite run_emitted. split.
  - rewrite <- (on_ticks_period_any (counter m) lo) by lia.
    rewrite <- Hlen. apply pwm_trace_mono, Forall2_repeat_below.
    eapply Forall_impl; [| exact Hall]. cbv beta. intros d Hd. lia.
  - rewrite <- (on_ticks_period_any (counter m) hi) by lia.
    rewrite <- Hlen. apply pwm_trace_mono, Forall2_repeat_above.
    eapply Forall_impl; [| exact Hall]. cbv beta. intros d Hd. lia.
Qed.

(** *** Host writes to other words *)




(** *** The counters of one period *)

Lemma counters_seen_ticks (ss : list step) :
  forall m, all_ticks ss = true ->
  counters_seen ss m = sawtooth (length ss) (counter m).
Proof.
  induction ss as [| s rest IH]; intros m H.
  - reflexivity.
  - unfold all_ticks in H. simpl in H. apply andb_true_iff in H.
    destruct H as [Hs Hrest].
    cbn [counters_seen length sawtooth].
    rewrite IH, exec_step_counter, Hs by exact Hrest. reflexivity.
Qed.

Lemma sawtooth_app (n1 n2 : nat) :
  forall c, sawtooth (n1 + n2) c = sawtooth n1 c ++ sawtooth n2 (advance n1 c).
Proof.
  induction n1 as [| k IH]; intros c.
  - reflexivity.
  - cbn [Nat.add sawtooth advance app]. rewrite IH. reflexivity.
Qed.

Lemma sawtooth_mod (n : nat) (c : Z) : sawtooth n (c mod 256) = sawtooth n c.
Proof.
  assert (H : next_counter (c mod 256) = next_counter c).
  { rewrite !next_counter_mod. apply Zplus_mod_idemp_l. }
  destruct n as [| k]; cbn [sawtooth].
  - reflexivity.
  - rewrite H. reflexivity.
Qed.

Lemma sawtooth_ramp (n : nat) :
  forall a : nat, (a + n <= 255)%nat ->
  sawtooth n (Z.of_nat a) = map Z.of_nat (seq (S a) n).
Proof.
  induction n as [| k IH]; intros a Ha.
  - reflexivity.
  - cbn [sawtooth seq map]. rewrite next_counter_succ by lia.
    replace (Z.of_nat a + 1) with (Z.of_nat (S a)) by lia.
    rewrite IH by lia. reflexivity.
Qed.

Lemma sawtooth_period (a : nat) :
  (a <= 255)%nat ->
  sawtooth ((255 - a) + (1 + a)) (Z.of_nat a) =
  map Z.of_nat (seq (S a) (255 - a) ++ seq 0 (S a)).
Proof.
  intros Ha.
  rewrite !sawtooth_app.
  rewrite (advance_ramp (255 - a) (Z.of_nat a)) by lia.
  replace (Z.of_nat a + Z.of_nat (255 - a)) with 255 by lia.
  change (advance 1 255) with 0. change (sawtooth 1 255) with [0].
  rewrite (sawtooth_ramp (255 - a) a) by lia.
  change (sawtooth a 0) with (sawtooth a (Z.of_nat 0)).
  rewrite (sawtooth_ramp a 0) by lia.
  rewrite map_app. cbn [seq map]. reflexivity.
Qed.

(** X12: in 256 consecutive ticks the counter that is compared takes every
    value from 0 to 255 exactly once, whatever the counter was before. *)
Theorem period_visits_every_counter (m : machine) (ss : list step) :
  all_ticks ss = true ->
  length ss = 256%nat ->
  Permutation (counters_seen ss m) (map Z.of_nat (seq 0 256)).
Proof.
  intros Hticks Hlen.
  rewrite counters_seen_ticks, Hlen, <- sawtooth_mod by exact Hticks.
  pose proof (Z.mod_pos_bound (counter m) 256) as Hc.
  remember (Z.to_nat (counter m mod 256)) as a eqn:Ea.
  replace (counter m mod 256) with (Z.of_nat a) by lia.
  assert (Ha : (a <= 255)%nat) by lia.
  transitivity (map Z.of_nat (seq (S a) (255 - a) ++ seq 0 (S a))).
  - rewrite <- sawtooth_period by exact Ha.
    replace (255 - a + (1 + a))%nat with 256%nat by lia. reflexivity.
  - apply Permutation_map.
    replace 256%nat with (S a + (255 - a))%nat at 1 by lia.
    rewrite seq_app. apply Permutation_app_comm.
Qed.

(** *** Saturation, in terms of the comparison macros *)



(** X15: the handler treats a duty value d as [MIN(d, 255)]: replacing the
    stored word by its clamped value changes no output of any run of ticks
    and no counter. *)
Theorem duty_saturates_at_255 (m : machine) (ss : list step) :
  all_ticks ss = true ->
  let m' :=
    state_after (sdram_write led_value (MIN (sdram m led_value) 255) m) in
  emitted (run ss m) = emitted (run ss m') /\
  counter (state_after (run ss m)) = counter (state_after (run ss m')).
Proof.
  intros Hticks m'.
  assert (Hmem : sdram m' led_value = MIN (sdram m led_value) 255).
  { unfold m', state_after, sdram_write, poke. cbn [fst snd sdram].
    rewrite Z.eqb_refl. reflexivity. }
  rewrite !run_emitted, !run_counter, !duties_read_ticks by exact Hticks.
  rewrite Hmem. unfold MIN.
  destruct (Z.ltb_spec (sdram m led_value) 255) as [Hlt | Hge].
  - split; reflexivity.
  - rewrite !pwm_trace_saturated by lia. split; reflexivity.
Qed.

End Blink.

(** ** The handler on concrete machines

    The address chosen for [SDRAM_BASE_UNBUF] below is arbitrary. *)

Example tick_from_boot :
  on_timer_tick 0x70000000 0 0 (boot (poke 0x70000000 5 blank_sdram)) =
  (tt, {| counter := 1; sdram := poke 0x70000000 5 blank_sdram |},
   [LedControl (LED_ON 0)]).
Proof. reflexivity. Qed.

Example tick_wraps_at_255 :
  on_timer_tick 0x70000000 0 0 {| counter := 255; sdram := blank_sdram |} =
  (tt, {| counter := 0; sdram := blank_sdram |}, [LedControl (LED_ON 0)]).
Proof. reflexivity. Qed.

Example tick_above_duty :
  emitted (run 0x70000000 [Tick 0 0; Tick 0 0; Tick 0 0]
             (boot (poke 0x70000000 1 blank_sdram))) =
  [LedControl (LED_ON 0); LedControl (LED_OFF 0); LedControl (LED_OFF 0)].
Proof. reflexivity. Qed.

Example host_write_seen_by_next_tick :
  emitted (run 0x70000000 [Tick 0 0; Tick 0 0; HostWrite 0x70000000 200; Tick 0 0]
             (boot blank_sdram)) =
  [LedControl (LED_OFF 0); LedControl (LED_OFF 0); LedControl (LED_ON 0)].
Proof. reflexivity. Qed.

(** The scenario of duty value 128: 129 ON ticks, 127 OFF ticks. *)
Lemma period_on_off_counts_witness :
  let m := boot (poke 0x70000000 128 blank_sdram) in
  let ss := repeat (Tick 0 0) 256 in
  on_ticks (emitted (run 0x70000000 ss m)) = 128 + 1 /\
  off_ticks (emitted (run 0x70000000 ss m)) = 255 - 128.
Proof.
  cbv zeta.
  apply (period_on_off_counts 0x70000000
           (boot (poke 0x70000000 128 blank_sdram))
           (repeat (Tick 0 0) 256) 128).
  - lia.
  - reflexivity.
  - reflexivity.
  - reflexivity.
  - reflexivity.
Defined.

Lemma duty_above_range_always_on_witness :
  let m := {| counter := 254; sdram := poke 0x70000000 4096 blank_sdram |} in
  let ss := [Tick 0 0; Tick 1 0; Tick 2 0] in
  let m255 := state_after (sdram_write (led_value 0x70000000) 255 m) in
  emitted (run 0x70000000 ss m) =
    repeat (LedControl (LED_ON BLINK_LED)) (length ss) /\
  emitted (run 0x70000000 ss m) = emitted (run 0x70000000 ss m255) /\
  counter (state_after (run 0x70000000 ss m)) =
    counter (state_after (run 0x70000000 ss m255)).
Proof.
  cbv zeta.
  apply (duty_above_range_always_on 0x70000000
           {| counter := 254; sdram := poke 0x70000000 4096 blank_sdram |}
           [Tick 0 0; Tick 1 0; Tick 2 0]).
  - vm_compute. discriminate.
  - reflexivity.
Defined.

Lemma duty_zero_single_on_tick_witness :
  let m := {| counter := 254; sdram := blank_sdram |} in
  let ss := [Tick 0 0; Tick 1 0; Tick 2 0] in
  let period := repeat (Tick 0 0) 256 in
  emitted (run 0x70000000 ss m) =
    map (fun c => LedControl (if c =? 0 then LED_ON BLINK_LED
                              else LED_OFF BLINK_LED))
        (counters_seen 0x70000000 ss m) /\
  on_ticks (emitted (run 0x70000000 period m)) = 1 /\
  off_ticks (emitted (run 0x70000000 period m)) = 255.
Proof.
  cbv zeta.
  apply (duty_zero_single_on_tick 0x70000000
           {| counter := 254; sdram := blank_sdram |}
           [Tick 0 0; Tick 1 0; Tick 2 0]
           (repeat (Tick 0 0) 256)).
  - reflexivity.
  - reflexivity.
  - reflexivity.
  - reflexivity.
Defined.

Lemma counter_period_256_witness :
  let m := state_after (exec_step 0x70000000 (Tick 0 0) (boot blank_sdram)) in
  let ss := HostWrite 0x70000000 9 :: repeat (Tick 0 0) 256 in
  counter m = 1 /\
  counter (state_after (run 0x70000000 ss m)) = counter m.
Proof.
  cbv zeta. split.
  - reflexivity.
  - apply (counter_period_256 0x70000000
             (state_after (exec_step 0x70000000 (Tick 0 0) (boot blank_sdram)))
             (HostWrite 0x70000000 9 :: repeat (Tick 0 0) 256)).
    + apply reach_step. apply reach_boot.
    + reflexivity.
Defined.

Lemma run_deterministic_witness :
  let m1 := boot (poke 0x70000000 1 blank_sdram) in
  let m2 := boot (poke 0x70000004 77 blank_sdram) in
  let ss1 := [Tick 0 0; Tick 1 0] in
  let ss2 := [HostWrite 0x70000000 1; Tick 8 9; HostWrite 0x70000004 3; Tick 5 5] in
  emitted (run 0x70000000 ss1 m1) = emitted (run 0x70000000 ss2 m2) /\
  counter (state_after (run 0x70000000 ss1 m1)) =
    counter (state_after (run 0x70000000 ss2 m2)).
Proof.
  cbv zeta.
  apply (run_deterministic 0x70000000
           (boot (poke 0x70000000 1 blank_sdram))
           (boot (poke 0x70000004 77 blank_sdram))
           [Tick 0 0; Tick 1 0]
           [HostWrite 0x70000000 1; Tick 8 9; HostWrite 0x70000004 3; Tick 5 5]).
  - reflexivity.
  - reflexivity.
Defined.

(** ** The further properties on concrete machines *)

Lemma increment_never_overflows_witness :
  let m := state_after (run 0x70000000 (repeat (Tick 0 0) 255)
                          (boot blank_sdram)) in
  uint_add (counter m) 1 = counter m + 1 /\
  counter (state_after (on_timer_tick 0x70000000 0 0 m)) =
    (if counter m =? 255 then 0 else counter m + 1).
Proof.
  cbv zeta.
  apply (increment_never_overflows 0x70000000 0 0).
  assert (R : forall ss m, reachable 0x70000000 m ->
                reachable 0x70000000 (state_after (run 0x70000000 ss m))).
  { induction ss as [| s rest IH]; intros m Hm.
    - exact Hm.
    - rewrite run_cons. unfold state_after at 1. cbn [fst snd].
      apply IH. apply reach_step. exact Hm. }
  apply R. apply reach_boot.
Defined.

Lemma period_transfer_function_witness :
  let m := {| counter := 77; sdram := poke 0x70000000 1000 blank_sdram |} in
  let ss := repeat (Tick 0 0) 256 in
  on_ticks (emitted (run 0x70000000 ss m)) = Z.min 1000 255 + 1 /\
  off_ticks (emitted (run 0x70000000 ss m)) = 255 - Z.min 1000 255.
Proof.
  cbv zeta.
  apply (period_transfer_function 0x70000000
           {| counter := 77; sdram := poke 0x70000000 1000 blank_sdram |}
           (repeat (Tick 0 0) 256)).
  - vm_compute. discriminate.
  - reflexivity.
  - reflexivity.
Defined.

Lemma never_fully_off_witness :
  let m := boot blank_sdram in
  let ss := repeat (Tick 0 0) 256 in
  1 <= on_ticks (emitted (run 0x70000000 ss m)) /\
  (off_ticks (emitted (run 0x70000000 ss m)) = 0 <->
   255 <= sdram m (led_value 0x70000000)).
Proof.
  cbv zeta.
  apply (never_fully_off 0x70000000 (boot blank_sdram) (repeat (Tick 0 0) 256)).
  - vm_compute. discriminate.
  - reflexivity.
  - reflexivity.
Defined.

Lemma period_waveform_witness :
  let m := state_after (exec_step 0x70000000 (Tick 0 0)
                          (boot (poke 0x70000000 3 blank_sdram))) in
  emitted (run 0x70000000 (repeat (Tick 0 0) 256) m) =
  repeat (LedControl (LED_ON BLINK_LED)) 2
  ++ repeat (LedControl (LED_OFF BLINK_LED)) 252
  ++ [LedControl (LED_ON BLINK_LED)]
  ++ repeat (LedControl (LED_ON BLINK_LED)) 1
  ++ repeat (LedControl (LED_OFF BLINK_LED)) 0.
Proof.
  cbv zeta.
  apply (period_waveform 0x70000000
           (state_after (exec_step 0x70000000 (Tick 0 0)
                           (boot (poke 0x70000000 3 blank_sdram))))
           (repeat (Tick 0 0) 256)).
  - apply reach_step. apply reach_boot.
  - vm_compute. split; discriminate.
  - reflexivity.
  - reflexivity.
Defined.

Lemma output_repeats_every_256_witness :
  let m := boot (poke 0x70000000 3 blank_sdram) in
  let period := repeat (Tick 0 0) 256 in
  let ss := [Tick 0 0; Tick 0 0; Tick 0 0; Tick 0 0; Tick 0 0] in
  emitted (run 0x70000000 (period ++ ss) m) =
  emitted (run 0x70000000 period m) ++ emitted (run 0x70000000 ss m).
Proof.
  cbv zeta.
  apply (output_repeats_every_256 0x70000000).
  - reflexivity.
  - reflexivity.
  - reflexivity.
Defined.

Lemma whole_periods_on_count_witness :
  let m := boot (poke 0x70000000 9 blank_sdram) in
  on_ticks (emitted (run 0x70000000 (repeat (Tick 0 0) 768) m)) =
    Z.of_nat 3 * (Z.min 9 255 + 1).
Proof.
  cbv zeta.
  apply (whole_periods_on_count 0x70000000
           (boot (poke 0x70000000 9 blank_sdram)) (repeat (Tick 0 0) 768) 3).
  - vm_compute. discriminate.
  - reflexivity.
  - reflexivity.
Defined.

Lemma on_ticks_monotone_witness :
  let m1 := boot (poke 0x70000000 1 blank_sdram) in
  let m2 := boot (poke 0x70000000 2 blank_sdram) in
  let ss1 := [Tick 0 0; Tick 0 0; Tick 0 0] in
  let ss2 := [Tick 0 0; HostWrite 0x70000000 40; Tick 0 0; Tick 0 0] in
  on_ticks (emitted (run 0x70000000 ss1 m1)) <=
  on_ticks (emitted (run 0x70000000 ss2 m2)).
Proof.
  cbv zeta.
  apply (on_ticks_monotone 0x70000000).
  - reflexivity.
  - vm_compute. repeat constructor; discriminate.
Defined.

Lemma changing_duty_bounds_witness :
  let m := boot (poke 0x70000000 50 blank_sdram) in
  let ss := repeat (Tick 0 0) 100
            ++ HostWrite 0x70000000 200 :: repeat (Tick 0 0) 156 in
  50 + 1 <= on_ticks (emitted (run 0x70000000 ss m)) <= 200 + 1.
Proof.
  cbv zeta.
  apply (changing_duty_bounds 0x70000000).
  - lia.
  - lia.
  - reflexivity.
  - apply Forall_forall. intros d Hd.
    assert (Hb : forallb (fun d => (50 <=? d) && (d <=? 200))
                   (duties_read 0x70000000
                      (repeat (Tick 0 0) 100
                       ++ HostWrite 0x70000000 200 :: repeat (Tick 0 0) 156)
                      (boot (poke 0x70000000 50 blank_sdram))) = true)
      by (vm_compute; reflexivity).
    rewrite forallb_forall in Hb. specialize (Hb d Hd). lia.
Defined.

Lemma period_visits_every_counter_witness :
  let m := {| counter := 200; sdram := blank_sdram |} in
  Permutation (counters_seen 0x70000000 (repeat (Tick 0 0) 256) m)
              (map Z.of_nat (seq 0 256)).
Proof.
  cbv zeta.
  apply (period_visits_every_counter 0x70000000).
  - reflexivity.
  - reflexivity.
Defined.


Lemma duty_saturates_at_255_witness :
  let m := boot (poke 0x70000000 70000 blank_sdram) in
  let ss := [Tick 0 0; Tick 0 0; Tick 0 0] in
  let m' :=
    state_after (sdram_write (led_value 0x70000000)
                   (MIN (sdram m (led_value 0x70000000)) 255) m) in
  emitted (run 0x70000000 ss m) = emitted (run 0x70000000 ss m') /\
  counter (state_after (run 0x70000000 ss m)) =
    counter (state_after (run 0x70000000 ss m')).
Proof.
  cbv zeta.
  apply (duty_saturates_at_255 0x70000000
           (boot (poke 0x70000000 70000 blank_sdram))
           [Tick 0 0; Tick 0 0; Tick 0 0]).
  reflexivity.
Defined.
